(** * HCI ECC manager register defines ([rtl/ecc/ECC.h])

    The header is pure preprocessor text: an include guard, a C++ linkage
    guard and five constants (the register width and four register
    offsets).  The development keeps the header as
    the lines of the file, lexes them into preprocessing directives and runs
    them through a small model of the C preprocessor (the subset the header
    uses: [#ifndef], [#ifdef], [#endif], object-like [#define], text lines
    with the replacement of object-like macros, and [//] comments).  The
    register block of the specification is then read back from the macro
    environment the header leaves behind. *)

From Stdlib Require Import List String Ascii ZArith Bool Lia.
Import ListNotations.
Local Open Scope string_scope.

(** ** The source text *)

Module Header.

(** The double-quote character (ASCII 34), used by the linkage line. *)
Definition dquote : string := String "034"%char EmptyString.

(** [rtl/ecc/ECC.h], line by line (28 lines). *)
Definition ECC_h : list string :=
  [ "// Generated register defines for HCI_ECC_manager"
  ; ""
  ; "#ifndef _HCI_ECC_MANAGER_REG_DEFS_"
  ; "#define _HCI_ECC_MANAGER_REG_DEFS_"
  ; ""
  ; "#ifdef __cplusplus"
  ; "extern " ++ dquote ++ "C" ++ dquote ++ " {"
  ; "#endif"
  ; "// Register width"
  ; "#define HCI_ECC_MANAGER_PARAM_REG_WIDTH 32"
  ; ""
  ; "// Correctable errors on data caught by ecc on interconnect"
  ; "#define HCI_ECC_MANAGER_DATA_CORRECTABLE_ERRORS_REG_OFFSET 0x0"
  ; ""
  ; "// Uncorrectable errors on data caught by ecc on interconnect"
  ; "#define HCI_ECC_MANAGER_DATA_UNCORRECTABLE_ERRORS_REG_OFFSET 0x4"
  ; ""
  ; "// Correctable errors caught on metadata by ecc on interconnect"
  ; "#define HCI_ECC_MANAGER_METADATA_CORRECTABLE_ERRORS_REG_OFFSET 0x8"
  ; ""
  ; "// Uncorrectable errors caught on metadata by ecc on interconnect"
  ; "#define HCI_ECC_MANAGER_METADATA_UNCORRECTABLE_ERRORS_REG_OFFSET 0xc"
  ; ""
  ; "#ifdef __cplusplus"
  ; "}  // extern " ++ dquote ++ "C" ++ dquote
  ; "#endif"
  ; "#endif  // _HCI_ECC_MANAGER_REG_DEFS_"
  ; "// End generated register defines for HCI_ECC_manager" ].

(** The names the header introduces. *)
Definition guard_name : string := "_HCI_ECC_MANAGER_REG_DEFS_".
Definition cplusplus_name : string := "__cplusplus".
Definition block_name : string := "HCI_ECC_MANAGER".

Definition WIDTH : string := "HCI_ECC_MANAGER_PARAM_REG_WIDTH".
Definition DATA_CORRECTABLE : string :=
  "HCI_ECC_MANAGER_DATA_CORRECTABLE_ERRORS_REG_OFFSET".
Definition DATA_UNCORRECTABLE : string :=
  "HCI_ECC_MANAGER_DATA_UNCORRECTABLE_ERRORS_REG_OFFSET".
Definition METADATA_CORRECTABLE : string :=
  "HCI_ECC_MANAGER_METADATA_CORRECTABLE_ERRORS_REG_OFFSET".
Definition METADATA_UNCORRECTABLE : string :=
  "HCI_ECC_MANAGER_METADATA_UNCORRECTABLE_ERRORS_REG_OFFSET".

(** Every macro name a [#define] of the header mentions. *)
Definition header_names : list string :=
  [ guard_name; WIDTH; DATA_CORRECTABLE; DATA_UNCORRECTABLE;
    METADATA_CORRECTABLE; METADATA_UNCORRECTABLE ].

End Header.

(** ** Lexing a line *)

Module Lex.

Definition is_space (c : ascii) : bool :=
  (c =? " ")%char || (c =? "009")%char.

Definition is_dquote (c : ascii) : bool := (c =? "034")%char.
Definition is_slash (c : ascii) : bool := (c =? "/")%char.

(** Drop a [//] comment, which runs to the end of the line.  Two slashes
    inside a string literal do not start a comment. *)
Fixpoint strip_comment (in_str : bool) (s : string) : string :=
  match s with
  | EmptyString => EmptyString
  | String c rest =>
      if in_str then String c (strip_comment (negb (is_dquote c)) rest)
      else
        match rest with
        | String c' _ =>
            if is_slash c && is_slash c' then EmptyString
            else String c (strip_comment (is_dquote c) rest)
        | EmptyString => String c EmptyString
        end
  end.

(** Cut a string at every white-space character; consecutive separators
    leave empty pieces, which [words] removes. *)
Fixpoint split_ws (s : string) : list string :=
  match s with
  | EmptyString => [EmptyString]
  | String c rest =>
      if is_space c then EmptyString :: split_ws rest
      else
        match split_ws rest with
        | w :: ws => String c w :: ws
        | [] => [String c EmptyString]
        end
  end.

Definition words (s : string) : list string :=
  filter (fun w => negb (w =? "")) (split_ws s).

(** The preprocessing tokens of a source line. *)
Definition tokens (s : string) : list string := words (strip_comment false s).

(** A preprocessing line. *)
Inductive line : Type :=
| Blank
| Ifndef (m : string)
| Ifdef (m : string)
| Endif
| Define (m : string) (body : list string)
| Text (toks : list string)
| Bad (toks : list string).

(** An identifier: a letter or underscore, then letters, digits and
    underscores.  Only identifiers can be macro names; string literals and
    punctuators are never replaced. *)
Definition is_letter (c : ascii) : bool :=
  let n := nat_of_ascii c in
  ((65 <=? n)%nat && (n <=? 90)%nat) || ((97 <=? n)%nat && (n <=? 122)%nat)
  || (n =? 95)%nat.

Definition is_digit (c : ascii) : bool :=
  let n := nat_of_ascii c in (48 <=? n)%nat && (n <=? 57)%nat.

Fixpoint all_chars (p : ascii -> bool) (s : string) : bool :=
  match s with
  | EmptyString => true
  | String c rest => p c && all_chars p rest
  end.

Definition is_identifier (t : string) : bool :=
  match t with
  | EmptyString => false
  | String c rest =>
      is_letter c && all_chars (fun x => is_letter x || is_digit x) rest
  end.

Definition is_directive (t : string) : bool :=
  match t with
  | String c _ => (c =? "#")%char
  | EmptyString => false
  end.

Definition parse_line (s : string) : line :=
  match tokens s with
  | [] => Blank
  | t :: ts =>
      if t =? "#ifndef" then match ts with [m] => Ifndef m | _ => Bad (t :: ts) end
      else if t =? "#ifdef" then match ts with [m] => Ifdef m | _ => Bad (t :: ts) end
      else if t =? "#endif" then match ts with [] => Endif | _ => Bad (t :: ts) end
      else if t =? "#define" then
        match ts with m :: body => Define m body | [] => Bad (t :: ts) end
      else if is_directive t then Bad (t :: ts)
      else Text (t :: ts)
  end.

Definition parse (file : list string) : list line := map parse_line file.

End Lex.

(** ** The preprocessor *)

Module Cpp.
Import Lex.

(** The macro environment: the object-like macros defined so far with their
    replacement lists, most recent definition first.  Function-like macros
    are outside the model: the header defines none, and no environment
    describes a unit that has made one of the header's names a function-like
    macro. *)
Definition env : Type := list (string * list string).

Fixpoint lookup (m : string) (e : env) : option (list string) :=
  match e with
  | [] => None
  | (k, body) :: e' => if k =? m then Some body else lookup m e'
  end.

Definition defined (m : string) (e : env) : bool :=
  match lookup m e with Some _ => true | None => false end.

Fixpoint same_tokens (a b : list string) : bool :=
  match a, b with
  | [], [] => true
  | x :: a', y :: b' => (x =? y) && same_tokens a' b'
  | _, _ => false
  end.

Inductive pp_error : Type :=
| Redefinition (m : string)
| StrayEndif
| Unterminated
| BadDirective (toks : list string).

Inductive result (A : Type) : Type :=
| Ok (a : A)
| Err (e : pp_error).
Arguments Ok {A} a.
Arguments Err {A} e.

Definition bind {A B : Type} (r : result A) (k : A -> result B) : result B :=
  match r with
  | Ok a => k a
  | Err e => Err e
  end.

Notation "x <- r ;; k" := (bind r (fun x => k))
  (at level 61, r at next level, right associativity).

(** The state of a run: the macros, the truth values of the conditional
    groups that are open (innermost first), and the text lines passed on to
    the compiler. *)
Record pp_state : Type := mk_state
  { macros : env;
    conds : list bool;
    emitted : list (list string) }.

(** A line is live when every enclosing conditional group was taken. *)
Definition active (st : pp_state) : bool := forallb (fun b => b) (conds st).

Definition push (b : bool) (st : pp_state) : pp_state :=
  mk_state (macros st) (b :: conds st) (emitted st).

(** Macro replacement of the tokens of a text line.  An identifier that
    is the name of a macro is replaced by the macro's replacement list, and
    the list is scanned again for further names; during that scan the name
    just replaced is no macro (it is taken out of the environment by
    [hide]), so replacement ends.  Every replacement makes the environment
    shorter, so its length is fuel enough. *)
Fixpoint hide (m : string) (e : env) : env :=
  match e with
  | [] => []
  | (k, body) :: e' => if k =? m then hide m e' else (k, body) :: hide m e'
  end.

Fixpoint expand_tok (fuel : nat) (e : env) (t : string) : list string :=
  match fuel with
  | O => [t]
  | S n =>
      if is_identifier t then
        match lookup t e with
        | Some body => flat_map (expand_tok n (hide t e)) body
        | None => [t]
        end
      else [t]
  end.

Definition expand (e : env) (toks : list string) : list string :=
  flat_map (expand_tok (List.length e) e) toks.

(** [#define]: a new name is entered; a name that is already defined may
    only be defined again with the same replacement list (C11 6.10.3p2).
    A definition with another list is an error here and ends the run;
    compilers that only warn go on with the new list, which is not
    modelled: what is proved of a successful run speaks of units without
    such a conflict. *)
Definition define (m : string) (body : list string) (e : env) : result env :=
  match lookup m e with
  | None => Ok ((m, body) :: e)
  | Some old => if same_tokens old body then Ok e else Err (Redefinition m)
  end.

Definition step (st : pp_state) (l : line) : result pp_state :=
  match l with
  | Blank => Ok st
  | Ifndef m => Ok (push (negb (defined m (macros st))) st)
  | Ifdef m => Ok (push (defined m (macros st)) st)
  | Endif =>
      match conds st with
      | [] => Err StrayEndif
      | _ :: cs => Ok (mk_state (macros st) cs (emitted st))
      end
  | Define m body =>
      if active st then
        e <- define m body (macros st) ;;
        Ok (mk_state e (conds st) (emitted st))
      else Ok st
  | Text toks =>
      if active st then
        Ok (mk_state (macros st) (conds st)
              (emitted st ++ [expand (macros st) toks]))
      else Ok st
  | Bad toks => if active st then Err (BadDirective toks) else Ok st
  end.

Fixpoint run (ls : list line) (st : pp_state) : result pp_state :=
  match ls with
  | [] => Ok st
  | l :: ls' => st' <- step st l ;; run ls' st'
  end.

(** Including a file in a translation unit whose macros are [e]: every
    conditional the file opens has to be closed by its end. *)
Definition include (file : list string) (e : env)
  : result (env * list (list string)) :=
  st <- run (parse file) (mk_state e [] []) ;;
  match conds st with
  | [] => Ok (macros st, emitted st)
  | _ :: _ => Err Unterminated
  end.

(** Including a file [n] times in a row. *)
Fixpoint include_times (n : nat) (file : list string) (e : env)
  : result (env * list (list string)) :=
  match n with
  | O => Ok (e, [])
  | S n' =>
      r <- include file e ;;
      r' <- include_times n' file (fst r) ;;
      Ok (fst r', (snd r ++ snd r')%list)
  end.

(** The [#define]s of a list in turn. *)
Fixpoint define_all (ds : env) (e : env) : result env :=
  match ds with
  | [] => Ok e
  | (m, body) :: ds' => e' <- define m body e ;; define_all ds' e'
  end.

(** The names a line can define. *)
Definition defined_by (l : line) : list string :=
  match l with
  | Define m _ => [m]
  | _ => []
  end.

(** The definitions a stretch of lines asks for, and whether the stretch
    holds nothing but blank lines and [#define]s. *)
Fixpoint defs_of (ls : list line) : env :=
  match ls with
  | [] => []
  | Define m body :: ls' => (m, body) :: defs_of ls'
  | _ :: ls' => defs_of ls'
  end.

Definition only_defines (ls : list line) : bool :=
  forallb (fun l => match l with Blank | Define _ _ => true | _ => false end) ls.

(** The environment of a C translation unit, and of a C++ one, before the
    header is seen. *)
Definition c_env : env := [].
Definition cxx_env : env := [(Header.cplusplus_name, ["201703L"])].

End Cpp.

(** ** Integer constants *)

Module Literal.

Definition digit_val (c : ascii) : option Z :=
  let n := nat_of_ascii c in
  if (48 <=? n)%nat && (n <=? 57)%nat then Some (Z.of_nat (n - 48))
  else if (97 <=? n)%nat && (n <=? 102)%nat then Some (Z.of_nat (n - 87))
  else if (65 <=? n)%nat && (n <=? 70)%nat then Some (Z.of_nat (n - 55))
  else None.

Fixpoint digits (base acc : Z) (s : string) : option Z :=
  match s with
  | EmptyString => Some acc
  | String c rest =>
      match digit_val c with
      | Some d => if (d <? base)%Z then digits base (acc * base + d)%Z rest else None
      | None => None
      end
  end.

(** The value of a C integer constant without suffix: [0x] or [0X] starts
    a hexadecimal constant, another leading [0] an octal one. *)
Definition int_literal (s : string) : option Z :=
  match s with
  | EmptyString => None
  | String c rest =>
      if (c =? "0")%char then
        match rest with
        | EmptyString => Some 0%Z
        | String x hex =>
            if (x =? "x")%char || (x =? "X")%char then
              match hex with
              | EmptyString => None
              | String _ _ => digits 16 0 hex
              end
            else digits 8 0 rest
        end
      else digits 10 0 s
  end.

End Literal.

(** ** The register block read back from the macros *)

Module Block.
Import Cpp Literal.

(** [strip_prefix p s] is what follows [p] in [s]. *)
Fixpoint strip_prefix (p s : string) : option string :=
  match p with
  | EmptyString => Some s
  | String a p' =>
      match s with
      | String b s' => if (a =? b)%char then strip_prefix p' s' else None
      | EmptyString => None
      end
  end.

Fixpoint rev_string (acc s : string) : string :=
  match s with
  | EmptyString => acc
  | String c rest => rev_string (String c acc) rest
  end.

(** [strip_suffix x s] is what precedes [x] in [s]. *)
Definition strip_suffix (x s : string) : option string :=
  match strip_prefix (rev_string "" x) (rev_string "" s) with
  | Some r => Some (rev_string "" r)
  | None => None
  end.

(** The value of a macro whose replacement list is one integer constant. *)
Definition body_value (body : list string) : option Z :=
  match body with
  | [t] => int_literal t
  | _ => None
  end.

Definition constant_value (e : env) (m : string) : option Z :=
  match lookup m e with
  | Some body => body_value body
  | None => None
  end.

Record reg_block : Type := mk_block
  { param_width : Z;
    registers : list (string * Z) }.

(** A macro [<blk>_<REG>_REG_OFFSET] with an integer value is register
    [<REG>] of block [blk]. *)
Definition reg_entry (blk : string) (d : string * list string)
  : option (string * Z) :=
  match strip_prefix (blk ++ "_") (fst d) with
  | None => None
  | Some rest =>
      match strip_suffix "_REG_OFFSET" rest, body_value (snd d) with
      | Some r, Some o => Some (r, o)
      | _, _ => None
      end
  end.

Fixpoint collect (blk : string) (e : env) : list (string * Z) :=
  match e with
  | [] => []
  | d :: e' =>
      match reg_entry blk d with
      | Some r => r :: collect blk e'
      | None => collect blk e'
      end
  end.

(** The block [blk] as the macros of [e] describe it: its width is
    [<blk>_PARAM_REG_WIDTH], its registers come in the order in which they
    were defined. *)
Definition block_of (blk : string) (e : env) : option reg_block :=
  match constant_value e (blk ++ "_PARAM_REG_WIDTH") with
  | Some w => Some (mk_block w (collect blk (rev e)))
  | None => None
  end.

Definition offset_of (b : reg_block) (r : string) : option Z :=
  option_map snd (find (fun d => fst d =? r) (registers b)).

Definition offsets (b : reg_block) : list Z := map snd (registers b).
Definition names (b : reg_block) : list string := map fst (registers b).

(** Bytes per register. *)
Definition stride (b : reg_block) : Z := (param_width b / 8)%Z.

End Block.

(** ** The header seen by a consumer *)

Module ECC.
Import Header Lex Cpp Literal Block.

(** The language of the translation unit that includes the header. *)
Inductive language : Type := C | Cxx.

Definition unit_env (l : language) : env :=
  match l with
  | C => c_env
  | Cxx => cxx_env
  end.

(** The macros of a translation unit of language [l] once it has included
    the header, and those among them it did not have before, in the order
    of their definition. *)
Definition macros_after (l : language) : env :=
  match include ECC_h (unit_env l) with
  | Ok (e, _) => e
  | Err _ => unit_env l
  end.

Definition added (l : language) : env :=
  filter (fun d => negb (defined (fst d) (unit_env l))) (rev (macros_after l)).

(** The added macros that stand for an integer. *)
Fixpoint constants (e : env) : list (string * Z) :=
  match e with
  | [] => []
  | (m, body) :: e' =>
      match body_value body with
      | Some z => (m, z) :: constants e'
      | None => constants e'
      end
  end.

(** The register block the header describes. *)
Definition HCI_ECC_MANAGER (l : language) : option reg_block :=
  match include ECC_h (unit_env l) with
  | Ok (e, _) => block_of block_name e
  | Err _ => None
  end.

(** The [#define]s of the header below its guard. *)
Definition header_defines : env :=
  [ (WIDTH, ["32"]);
    (DATA_CORRECTABLE, ["0x0"]);
    (DATA_UNCORRECTABLE, ["0x4"]);
    (METADATA_CORRECTABLE, ["0x8"]);
    (METADATA_UNCORRECTABLE, ["0xc"]) ].

Definition constant_names : list string := map fst header_defines.

(** The two text lines of the linkage guard, as tokens. *)
Definition linkage_open : list string := ["extern"; dquote ++ "C" ++ dquote; "{"].
Definition linkage_close : list string := ["}"].
Definition linkage_text : list (list string) := [linkage_open; linkage_close].

(** The two lines as a C++ unit with macros [e] passes them on: the first
    is replaced when only the guard is defined besides [e]; the second is a
    lone brace, which no macro can change. *)
Definition linkage_in (e : env) : list (list string) :=
  [expand ((guard_name, []) :: e) linkage_open; linkage_close].

(** The lines of the header in three parts: up to the opening of the linkage
    block, the constants, and the closing lines. *)
Definition prologue : list line :=
  [ Blank; Blank; Ifndef guard_name; Define guard_name []; Blank;
    Ifdef cplusplus_name; Text linkage_open; Endif ].

Definition body_lines : list line :=
  [ Blank; Define WIDTH ["32"]; Blank;
    Blank; Define DATA_CORRECTABLE ["0x0"]; Blank;
    Blank; Define DATA_UNCORRECTABLE ["0x4"]; Blank;
    Blank; Define METADATA_CORRECTABLE ["0x8"]; Blank;
    Blank; Define METADATA_UNCORRECTABLE ["0xc"]; Blank ].

Definition epilogue : list line :=
  [ Ifdef cplusplus_name; Text linkage_close; Endif; Endif; Blank ].

(** A translation unit that has not used any name of the header. *)
Definition fresh (e : env) : Prop :=
  forall m, In m header_names -> lookup m e = None.

(** The block of the specification's concrete scenario. *)
Definition expected_block : reg_block :=
  mk_block 32%Z
    [ ("DATA_CORRECTABLE_ERRORS", 0%Z);
      ("DATA_UNCORRECTABLE_ERRORS", 4%Z);
      ("METADATA_CORRECTABLE_ERRORS", 8%Z);
      ("METADATA_UNCORRECTABLE_ERRORS", 12%Z) ].

(** A unit whose own definitions of the five constants, where it has any,
    carry the replacement lists of the header. *)
Definition compatible (e : env) : Prop :=
  forall m body, In (m, body) header_defines ->
                 lookup m e = None \/ lookup m e = Some body.

(** The registers of a block whose bytes include the byte at offset [a]. *)
Definition owners (b : reg_block) (a : Z) : list string :=
  map fst
    (filter (fun r => (snd r <=? a)%Z && (a <? snd r + stride b)%Z)
            (registers b)).

End ECC.

Import Header Lex Cpp Literal Block ECC.
Local Open Scope Z_scope.
Local Open Scope list_scope.

(** ** The model at work *)

Example tokens_drop_comment :
  tokens "#endif  // _HCI_ECC_MANAGER_REG_DEFS_" = ["#endif"%string].
Proof. reflexivity. Qed.

Example tokens_linkage_close : map tokens (skipn 24 (firstn 25 ECC_h)) = [linkage_close].
Proof. reflexivity. Qed.

Example parse_define :
  parse_line "#define HCI_ECC_MANAGER_PARAM_REG_WIDTH 32" = Define WIDTH ["32"%string].
Proof. reflexivity. Qed.

Example int_literal_hex : int_literal "0xc" = Some 12.
Proof. reflexivity. Qed.

Example int_literal_dec : int_literal "32" = Some 32.
Proof. reflexivity. Qed.

Example int_literal_suffix : int_literal "201703L" = None.
Proof. reflexivity. Qed.

(** Macro replacement: a name is replaced by its list, the list is scanned
    again, and the name being replaced is left alone in its own list. *)
Example expand_rescans :
  expand [("a"%string, ["b"%string]); ("b"%string, ["a"; "c"]%string)] ["a"%string; "{"%string]
  = ["a"; "c"; "{"]%string.
Proof. reflexivity. Qed.

(** A C++ unit that has made [extern] a macro gets the opening line of the
    linkage block with the macro replaced. *)
Example extern_replaced :
  match include ECC_h (("extern"%string, ["static"%string]) :: cxx_env) with
  | Ok (_, out) => out
  | Err _ => []
  end = [ ["static"; dquote ++ "C" ++ dquote; "{"]%string; ["}"%string] ].
Proof. vm_compute. reflexivity. Qed.

(** A unit that has given one of the names another replacement list is
    turned down; one that has given it the same list is not. *)
Example conflicting_width_rejected :
  include ECC_h [(WIDTH, ["64"%string])] = Err (Redefinition WIDTH).
Proof. vm_compute. reflexivity. Qed.

Example same_width_accepted :
  option_map param_width
    (match include ECC_h [(WIDTH, ["32"%string])] with
     | Ok (e, _) => block_of block_name e
     | Err _ => None
     end) = Some 32.
Proof. vm_compute. reflexivity. Qed.

(** ** The block as computed *)

Lemma block_computed (l : language) : HCI_ECC_MANAGER l = Some expected_block.
Proof. destruct l; vm_compute; reflexivity. Qed.

Lemma block_inv (l : language) (b : reg_block) :
  HCI_ECC_MANAGER l = Some b -> b = expected_block.
Proof. rewrite block_computed. intros H. injection H as <-. reflexivity. Qed.

Lemma in_expected (r : string) (o : Z) :
  In (r, o) (registers expected_block) ->
  (r = "DATA_CORRECTABLE_ERRORS"%string /\ o = 0) \/
  (r = "DATA_UNCORRECTABLE_ERRORS"%string /\ o = 4) \/
  (r = "METADATA_CORRECTABLE_ERRORS"%string /\ o = 8) \/
  (r = "METADATA_UNCORRECTABLE_ERRORS"%string /\ o = 12).
Proof.
  simpl. intros [H | [H | [H | [H | []]]]]; injection H as <- <-; tauto.
Qed.

(** C1. The block HCI_ECC_MANAGER has width 32 and exactly the four
    registers DATA_CORRECTABLE_ERRORS at 0x0, DATA_UNCORRECTABLE_ERRORS at
    0x4, METADATA_CORRECTABLE_ERRORS at 0x8 and
    METADATA_UNCORRECTABLE_ERRORS at 0xc, for a C and for a C++ consumer.
    The header defines six macros in all: its guard, which has no value, the
    width and the four offsets; there is no fifth offset. *)
Theorem register_table_exact (l : language) :
  HCI_ECC_MANAGER l =
    Some (mk_block 32
            [ ("DATA_CORRECTABLE_ERRORS"%string, 0);
              ("DATA_UNCORRECTABLE_ERRORS"%string, 4);
              ("METADATA_CORRECTABLE_ERRORS"%string, 8);
              ("METADATA_UNCORRECTABLE_ERRORS"%string, 12) ]) /\
  map fst (added l) = header_names /\
  constants (added l) =
    [ (WIDTH, 32); (DATA_CORRECTABLE, 0); (DATA_UNCORRECTABLE, 4);
      (METADATA_CORRECTABLE, 8); (METADATA_UNCORRECTABLE, 12) ] /\
  List.length (filter (fun d => match strip_suffix "_REG_OFFSET" (fst d) with
                           | Some _ => true
                           | None => false
                           end) (added l)) = 4%nat.
Proof. destruct l; vm_compute; repeat split. Qed.

(** C2. Two registers of the block with different names have different
    offsets. *)
Theorem offsets_unique (l : language) (b : reg_block)
    (r1 r2 : string) (o1 o2 : Z) :
  HCI_ECC_MANAGER l = Some b ->
  In (r1, o1) (registers b) -> In (r2, o2) (registers b) ->
  r1 <> r2 -> o1 <> o2.
Proof.
  intros Hb H1 H2 Hne. apply block_inv in Hb. subst b.
  apply in_expected in H1. apply in_expected in H2.
  destruct H1 as [[-> ->] | [[-> ->] | [[-> ->] | [-> ->]]]];
  destruct H2 as [[-> ->] | [[-> ->] | [[-> ->] | [-> ->]]]];
  solve [ lia | exfalso; apply Hne; reflexivity ].
Qed.

Lemma offsets_unique_witness : 0 <> 4.
Proof.
  apply (offsets_unique C expected_block
           "DATA_CORRECTABLE_ERRORS" "DATA_UNCORRECTABLE_ERRORS" 0 4).
  - vm_compute; reflexivity.
  - simpl; auto.
  - simpl; auto.
  - apply String.eqb_neq. vm_compute; reflexivity.
Defined.

(** C3. Every register offset of the block is a multiple of the register
    size in bytes, width / 8, which is 4. *)
Theorem offsets_aligned (l : language) (b : reg_block) (r : string) (o : Z) :
  HCI_ECC_MANAGER l = Some b ->
  In (r, o) (registers b) ->
  param_width b / 8 = 4 /\ o mod (param_width b / 8) = 0 /\ o mod 4 = 0.
Proof.
  intros Hb H. apply block_inv in Hb. subst b.
  apply in_expected in H.
  destruct H as [[-> ->] | [[-> ->] | [[-> ->] | [-> ->]]]];
  vm_compute; repeat split.
Qed.

Lemma offsets_aligned_witness :
  param_width expected_block / 8 = 4 /\
  12 mod (param_width expected_block / 8) = 0 /\ 12 mod 4 = 0.
Proof.
  apply (offsets_aligned Cxx expected_block "METADATA_UNCORRECTABLE_ERRORS" 12).
  - vm_compute; reflexivity.
  - simpl; auto.
Defined.

(** C4. The registers are defined in ascending order of offset; the first
    one is at offset 0 and every other one lies width / 8 = 4 bytes above
    the register defined before it. *)
Theorem offsets_contiguous (l : language) (b : reg_block) :
  HCI_ECC_MANAGER l = Some b ->
  stride b = 4 /\
  hd_error (offsets b) = Some 0 /\
  forall (i : nat) (o o' : Z),
    nth_error (offsets b) i = Some o ->
    nth_error (offsets b) (S i) = Some o' ->
    o < o' /\ o' = o + stride b.
Proof.
  intros Hb. apply block_inv in Hb. subst b.
  split; [reflexivity | split; [reflexivity |]].
  intros i o o' H H'.
  change (stride expected_block) with 4.
  destruct i as [| [| [| [| i]]]]; simpl in H, H';
    try discriminate;
    injection H as <-; injection H' as <-; lia.
Qed.

Lemma offsets_contiguous_witness :
  stride expected_block = 4 /\
  hd_error (offsets expected_block) = Some 0 /\
  forall (i : nat) (o o' : Z),
    nth_error (offsets expected_block) i = Some o ->
    nth_error (offsets expected_block) (S i) = Some o' ->
    o < o' /\ o' = o + stride expected_block.
Proof.
  apply (offsets_contiguous C expected_block).
  vm_compute; reflexivity.
Defined.

(** C10. In each error category the uncorrectable counter lies width / 8 = 4
    bytes above the correctable one, both data offsets are below both
    metadata offsets, and the i-th register in the order of definition
    (i = 0..3) has offset 4 * i. *)
Theorem offsets_pairing (l : language) (b : reg_block) :
  HCI_ECC_MANAGER l = Some b ->
  exists dc du mc mu : Z,
    offset_of b "DATA_CORRECTABLE_ERRORS" = Some dc /\
    offset_of b "DATA_UNCORRECTABLE_ERRORS" = Some du /\
    offset_of b "METADATA_CORRECTABLE_ERRORS" = Some mc /\
    offset_of b "METADATA_UNCORRECTABLE_ERRORS" = Some mu /\
    stride b = 4 /\
    du = dc + stride b /\ mu = mc + stride b /\
    dc < mc /\ dc < mu /\ du < mc /\ du < mu /\
    List.length (registers b) = 4%nat /\
    forall (i : nat) (r : string * Z),
      nth_error (registers b) i = Some r -> snd r = 4 * Z.of_nat i.
Proof.
  intros Hb. apply block_inv in Hb. subst b.
  exists 0, 4, 8, 12.
  repeat (split; [vm_compute; reflexivity || reflexivity |]).
  intros i r H.
  destruct i as [| [| [| [| i]]]]; simpl in H;
    try (injection H as <-; reflexivity).
  destruct i; discriminate H.
Qed.

Lemma offsets_pairing_witness :
  exists dc du mc mu : Z,
    offset_of expected_block "DATA_CORRECTABLE_ERRORS" = Some dc /\
    offset_of expected_block "DATA_UNCORRECTABLE_ERRORS" = Some du /\
    offset_of expected_block "METADATA_CORRECTABLE_ERRORS" = Some mc /\
    offset_of expected_block "METADATA_UNCORRECTABLE_ERRORS" = Some mu /\
    stride expected_block = 4 /\
    du = dc + stride expected_block /\ mu = mc + stride expected_block /\
    dc < mc /\ dc < mu /\ du < mc /\ du < mu /\
    List.length (registers expected_block) = 4%nat /\
    forall (i : nat) (r : string * Z),
      nth_error (registers expected_block) i = Some r -> snd r = 4 * Z.of_nat i.
Proof.
  apply (offsets_pairing Cxx expected_block).
  vm_compute; reflexivity.
Defined.

(** ** Facts about the preprocessor *)

Section Preprocessor_facts.

Lemma same_tokens_eq (a b : list string) : same_tokens a b = true -> a = b.
Proof.
  revert b. induction a as [| x a IH]; intros [| y b] H; simpl in H;
    try discriminate; [reflexivity |].
  apply andb_true_iff in H. destruct H as [Hxy Hab].
  apply String.eqb_eq in Hxy. subst y. f_equal. apply IH, Hab.
Qed.

Lemma lookup_cons_ne (k m : string) (body : list string) (e : env) :
  (k =? m)%string = false -> lookup m ((k, body) :: e) = lookup m e.
Proof. intros H. simpl. rewrite H. reflexivity. Qed.

Lemma lookup_cons_eq (m : string) (body : list string) (e : env) :
  lookup m ((m, body) :: e) = Some body.
Proof. simpl. rewrite String.eqb_refl. reflexivity. Qed.

Lemma define_fresh (m : string) (body : list string) (e : env) :
  lookup m e = None -> define m body e = Ok ((m, body) :: e).
Proof. intros H. unfold define. rewrite H. reflexivity. Qed.

(** A successful [#define] leaves every binding that was there. *)
Lemma define_keeps (m : string) (body : list string) (e e' : env)
    (x : string) (v : list string) :
  define m body e = Ok e' -> lookup x e = Some v -> lookup x e' = Some v.
Proof.
  unfold define. destruct (lookup m e) as [old |] eqn:Hm.
  - destruct (same_tokens old body); intros H; inversion H; subst; auto.
  - intros H Hx. inversion H; subst. simpl.
    destruct (m =? x)%string eqn:E; [| exact Hx].
    apply String.eqb_eq in E. subst x. congruence.
Qed.

(** It touches no other name. *)
Lemma define_other (m : string) (body : list string) (e e' : env) (x : string) :
  define m body e = Ok e' -> m <> x -> lookup x e' = lookup x e.
Proof.
  unfold define. destruct (lookup m e) as [old |].
  - destruct (same_tokens old body); intros H; inversion H; subst; auto.
  - intros H Hx. inversion H; subst.
    apply lookup_cons_ne. apply String.eqb_neq. exact Hx.
Qed.

(** And the name stands for the replacement list afterwards. *)
Lemma define_self (m : string) (body : list string) (e e' : env) :
  define m body e = Ok e' -> lookup m e' = Some body.
Proof.
  unfold define. destruct (lookup m e) as [old |] eqn:Hm.
  - destruct (same_tokens old body) eqn:Hs; intros H; inversion H; subst.
    apply same_tokens_eq in Hs. congruence.
  - intros H. inversion H; subst. apply lookup_cons_eq.
Qed.

Lemma step_keeps (st st' : pp_state) (l : line) (x : string) (v : list string) :
  step st l = Ok st' ->
  lookup x (macros st) = Some v -> lookup x (macros st') = Some v.
Proof.
  destruct l; simpl; intros H Hx.
  - inversion H; subst; assumption.
  - inversion H; subst; assumption.
  - inversion H; subst; assumption.
  - destruct (conds st); inversion H; subst; assumption.
  - destruct (active st); [| inversion H; subst; assumption].
    destruct (define m body (macros st)) as [e1 |] eqn:Hd; simpl in H;
      inversion H; subst; simpl.
    eapply define_keeps; eassumption.
  - destruct (active st); inversion H; subst; assumption.
  - destruct (active st); inversion H; subst; assumption.
Qed.

Lemma step_frame (st st' : pp_state) (l : line) (x : string) :
  step st l = Ok st' ->
  ~ In x (defined_by l) -> lookup x (macros st') = lookup x (macros st).
Proof.
  destruct l; simpl; intros H Hx.
  - inversion H; subst; reflexivity.
  - inversion H; subst; reflexivity.
  - inversion H; subst; reflexivity.
  - destruct (conds st); inversion H; subst; reflexivity.
  - destruct (active st); [| inversion H; subst; reflexivity].
    destruct (define m body (macros st)) as [e1 |] eqn:Hd; simpl in H;
      inversion H; subst; simpl.
    eapply define_other; [eassumption | tauto].
  - destruct (active st); inversion H; subst; reflexivity.
  - destruct (active st); inversion H; subst; reflexivity.
Qed.

Lemma run_keeps (ls : list line) : forall (st st' : pp_state) x v,
  run ls st = Ok st' ->
  lookup x (macros st) = Some v -> lookup x (macros st') = Some v.
Proof.
  induction ls as [| l ls IH]; simpl; intros st st' x v H Hx.
  - inversion H; subst; assumption.
  - destruct (step st l) as [st1 |] eqn:Hs; simpl in H; [| discriminate].
    eapply IH; [eassumption |]. eapply step_keeps; eassumption.
Qed.

Lemma run_frame (ls : list line) : forall (st st' : pp_state) x,
  run ls st = Ok st' ->
  ~ In x (flat_map defined_by ls) ->
  lookup x (macros st') = lookup x (macros st).
Proof.
  induction ls as [| l ls IH]; simpl; intros st st' x H Hx.
  - inversion H; subst; reflexivity.
  - destruct (step st l) as [st1 |] eqn:Hs; simpl in H; [| discriminate].
    rewrite in_app_iff in Hx.
    rewrite (IH st1 st' x H) by tauto.
    eapply step_frame; [eassumption | tauto].
Qed.

Lemma run_app (l1 l2 : list line) : forall st : pp_state,
  run (l1 ++ l2) st = (st' <- run l1 st ;; run l2 st').
Proof.
  induction l1 as [| l l1 IH]; simpl; intros st; [reflexivity |].
  destruct (step st l) as [st1 |]; simpl; [apply IH | reflexivity].
Qed.

Lemma run_defines (ls : list line) : forall st : pp_state,
  only_defines ls = true -> active st = true ->
  run ls st =
    (e <- define_all (defs_of ls) (macros st) ;;
     Ok (mk_state e (conds st) (emitted st))).
Proof.
  induction ls as [| l ls IH]; intros st Hls Hact.
  - destruct st; reflexivity.
  - simpl in Hls. apply andb_true_iff in Hls. destruct Hls as [Hl Hls].
    destruct l; try discriminate; simpl.
    + apply IH; assumption.
    + rewrite Hact.
      destruct (define m body (macros st)) as [e1 |]; simpl; [| reflexivity].
      rewrite IH by assumption. reflexivity.
Qed.

Lemma define_all_keeps (ds : env) : forall (e e' : env) x v,
  define_all ds e = Ok e' -> lookup x e = Some v -> lookup x e' = Some v.
Proof.
  induction ds as [| [m body] ds IH]; simpl; intros e e' x v H Hx.
  - inversion H; subst; assumption.
  - destruct (define m body e) as [e1 |] eqn:Hd; simpl in H; [| discriminate].
    eapply IH; [eassumption |]. eapply define_keeps; eassumption.
Qed.

Lemma define_all_other (ds : env) : forall (e e' : env) x,
  define_all ds e = Ok e' -> ~ In x (map fst ds) -> lookup x e' = lookup x e.
Proof.
  induction ds as [| [m body] ds IH]; simpl; intros e e' x H Hx.
  - inversion H; subst; reflexivity.
  - destruct (define m body e) as [e1 |] eqn:Hd; simpl in H; [| discriminate].
    rewrite (IH e1 e' x H) by tauto.
    eapply define_other; [eassumption | tauto].
Qed.

(** Tokens that are no macro names stay as they are. *)
Lemma expand_tok_not_identifier (n : nat) (e : env) (t : string) :
  is_identifier t = false -> expand_tok n e t = [t].
Proof. intros H. destruct n; simpl; [| rewrite H]; reflexivity. Qed.

Lemma expand_tok_undefined (n : nat) (e : env) (t : string) :
  lookup t e = None -> expand_tok n e t = [t].
Proof.
  intros H. destruct n; simpl; [reflexivity |].
  rewrite H. destruct (is_identifier t); reflexivity.
Qed.

Lemma hide_length (m : string) (e : env) :
  (List.length (hide m e) <= List.length e)%nat.
Proof.
  induction e as [| [k b] e IH]; simpl; [lia |].
  destruct (k =? m)%string; simpl; lia.
Qed.

Lemma hide_shorter (m : string) (e : env) (body : list string) :
  lookup m e = Some body -> (List.length (hide m e) < List.length e)%nat.
Proof.
  induction e as [| [k b] e IH]; simpl; [discriminate |].
  destruct (k =? m)%string.
  - intros _. pose proof (hide_length m e). lia.
  - intros H. specialize (IH H). simpl. lia.
Qed.

(** The length of the environment is fuel enough: more fuel gives the same
    replacement. *)
Lemma expand_tok_fuel (n : nat) : forall (m : nat) (e : env) (t : string),
  (List.length e <= n)%nat -> (List.length e <= m)%nat ->
  expand_tok n e t = expand_tok m e t.
Proof.
  induction n as [| n IH]; intros m e t Hn Hm.
  - destruct e; [| simpl in Hn; lia].
    destruct m; simpl; [reflexivity |].
    destruct (is_identifier t); reflexivity.
  - destruct m as [| m].
    + destruct e; [| simpl in Hm; lia]. simpl.
      destruct (is_identifier t); reflexivity.
    + simpl. destruct (is_identifier t); [| reflexivity].
      destruct (lookup t e) as [body |] eqn:Hl; [| reflexivity].
      pose proof (hide_shorter t e body Hl) as Hs. clear Hl.
      induction body as [| x body IHb]; simpl; [reflexivity |].
      rewrite IHb. rewrite (IH m (hide t e) x) by lia. reflexivity.
Qed.

Lemma expand_close (e : env) : expand e linkage_close = linkage_close.
Proof.
  unfold expand, linkage_close. simpl.
  rewrite expand_tok_not_identifier by reflexivity. reflexivity.
Qed.

(** Where [extern] is no macro the opening line goes out as written. *)
Lemma expand_open (e : env) :
  lookup "extern" e = None -> expand e linkage_open = linkage_open.
Proof.
  intros H. unfold expand, linkage_open. simpl.
  rewrite (expand_tok_undefined _ e "extern" H).
  rewrite !expand_tok_not_identifier by reflexivity. reflexivity.
Qed.

Lemma linkage_in_plain (e : env) :
  lookup "extern" e = None -> linkage_in e = linkage_text.
Proof.
  intros H. unfold linkage_in, linkage_text.
  rewrite expand_open; [reflexivity |].
  rewrite lookup_cons_ne by reflexivity. exact H.
Qed.

End Preprocessor_facts.

(** ** The run of the header *)

Section Header_run.

Lemma parse_ECC_h : parse ECC_h = (prologue ++ body_lines ++ epilogue)%list.
Proof. vm_compute. reflexivity. Qed.

Lemma defined_cons_ne (k m : string) (body : list string) (e : env) :
  (k =? m)%string = false -> defined m ((k, body) :: e) = defined m e.
Proof. intros H. unfold defined. rewrite lookup_cons_ne by exact H. reflexivity. Qed.

(** With the guard defined the whole file is skipped. *)
Lemma run_guarded (e : env) (b : list string) (out : list (list string)) :
  lookup guard_name e = Some b ->
  run (parse ECC_h) (mk_state e [] out) = Ok (mk_state e [] out).
Proof.
  intros Hg. rewrite parse_ECC_h.
  assert (Hd : defined guard_name e = true)
    by (unfold defined; rewrite Hg; reflexivity).
  unfold prologue, body_lines, epilogue.
  cbv [app run step bind active push forallb conds macros emitted].
  rewrite Hd.
  cbv [app run step bind active push forallb conds macros emitted negb andb].
  destruct (defined cplusplus_name e) eqn:Hc;
    cbv [bind conds macros emitted push]; rewrite ?Hc; reflexivity.
Qed.

Lemma run_prologue (e : env) :
  lookup guard_name e = None ->
  run prologue (mk_state e [] []) =
    Ok (mk_state ((guard_name, []) :: e) [true]
          (if defined cplusplus_name e
           then [expand ((guard_name, []) :: e) linkage_open] else [])).
Proof.
  intros Hg.
  assert (Hd : defined guard_name e = false)
    by (unfold defined; rewrite Hg; reflexivity).
  unfold prologue. simpl. rewrite Hd. simpl.
  rewrite (define_fresh _ _ _ Hg). simpl.
  rewrite defined_cons_ne by reflexivity.
  destruct (defined cplusplus_name e); reflexivity.
Qed.

Lemma run_epilogue (e : env) (out : list (list string)) :
  run epilogue (mk_state e [true] out) =
    Ok (mk_state e [] (if defined cplusplus_name e then (out ++ [linkage_close])%list else out)).
Proof.
  transitivity
    (Ok (mk_state e []
           (if defined cplusplus_name e
            then (out ++ [expand e linkage_close])%list else out))).
  - unfold epilogue. simpl.
    destruct (defined cplusplus_name e); reflexivity.
  - rewrite expand_close. reflexivity.
Qed.

Lemma include_guarded (e : env) (b : list string) :
  lookup guard_name e = Some b -> include ECC_h e = Ok (e, []).
Proof.
  intros Hg. unfold include. rewrite (run_guarded e b [] Hg). reflexivity.
Qed.

Lemma not_in_constant_names_cplusplus : ~ In cplusplus_name (map fst header_defines).
Proof.
  simpl. intros H.
  repeat (destruct H as [H | H]; [discriminate H |]). exact H.
Qed.

(** Without it, the guard and then the five constants are defined, and a
    C++ unit is handed the two lines of the linkage block. *)
Lemma include_unguarded (e : env) :
  lookup guard_name e = None ->
  include ECC_h e =
    (e' <- define_all header_defines ((guard_name, []) :: e) ;;
     Ok (e', if defined cplusplus_name e then linkage_in e else [])).
Proof.
  intros Hg. unfold include. rewrite parse_ECC_h, run_app.
  rewrite (run_prologue e Hg).
  change (st' <- Ok ?s ;; run ?ls st') with (run ls s).
  rewrite run_app, run_defines by reflexivity.
  change (defs_of body_lines) with header_defines.
  cbn [macros conds emitted].
  destruct (define_all header_defines ((guard_name, []) :: e)) as [e1 |] eqn:Hd;
    [| reflexivity].
  cbn [bind]. rewrite run_epilogue. cbn [bind conds macros emitted].
  assert (Hc : defined cplusplus_name e1 = defined cplusplus_name e).
  { unfold defined.
    rewrite (define_all_other _ _ _ _ Hd not_in_constant_names_cplusplus).
    rewrite lookup_cons_ne by reflexivity. reflexivity. }
  rewrite Hc. destruct (defined cplusplus_name e); reflexivity.
Qed.

(** After a successful inclusion the guard is defined. *)
Lemma include_sets_guard (e e' : env) (out : list (list string)) :
  include ECC_h e = Ok (e', out) -> exists b, lookup guard_name e' = Some b.
Proof.
  destruct (lookup guard_name e) as [b |] eqn:Hg.
  - rewrite (include_guarded e b Hg). intros H. inversion H; subst.
    exists b. assumption.
  - rewrite (include_unguarded e Hg).
    destruct (define_all header_defines ((guard_name, []) :: e)) as [e1 |] eqn:Hd;
      simpl; intros H; inversion H; subst.
    exists []. eapply define_all_keeps; [eassumption |]. apply lookup_cons_eq.
Qed.

(** What the compiler receives: nothing, or an empty linkage block. *)
Lemma include_emits (e e' : env) (out : list (list string)) :
  include ECC_h e = Ok (e', out) ->
  out = if defined guard_name e then []
        else if defined cplusplus_name e then linkage_in e else [].
Proof.
  unfold defined at 1.
  destruct (lookup guard_name e) as [b |] eqn:Hg.
  - rewrite (include_guarded e b Hg). intros H. inversion H; reflexivity.
  - rewrite (include_unguarded e Hg).
    destruct (define_all header_defines ((guard_name, []) :: e)) as [e1 |];
      simpl; intros H; inversion H; reflexivity.
Qed.

Lemma include_run (e e' : env) (out : list (list string)) :
  include ECC_h e = Ok (e', out) ->
  run (parse ECC_h) (mk_state e [] []) = Ok (mk_state e' [] out).
Proof.
  unfold include.
  destruct (run (parse ECC_h) (mk_state e [] [])) as [[e1 cs o1] |]; simpl;
    [| discriminate].
  destruct cs; intros H; inversion H; subst; reflexivity.
Qed.

End Header_run.

Section Consumers.

Lemma lookup_inserted (l : env) (x : string) (v : list string) (e : env)
    (m : string) :
  m <> x -> lookup m (l ++ (x, v) :: e) = lookup m (l ++ e).
Proof.
  intros Hm. induction l as [| [k b] l IH]; simpl.
  - destruct (x =? m)%string eqn:E; [| reflexivity].
    apply String.eqb_eq in E. congruence.
  - rewrite IH. reflexivity.
Qed.

Lemma define_inserted (m : string) (body : list string) (l : env)
    (x : string) (v : list string) (e : env) :
  m <> x ->
  match define m body (l ++ e), define m body (l ++ (x, v) :: e) with
  | Ok a, Ok b => exists l', a = (l' ++ e)%list /\ b = (l' ++ (x, v) :: e)%list
  | Err p, Err q => p = q
  | _, _ => False
  end.
Proof.
  intros Hm. unfold define. rewrite (lookup_inserted l x v e m Hm).
  destruct (lookup m (l ++ e)) as [old |].
  - destruct (same_tokens old body); [exists l; split |]; reflexivity.
  - exists ((m, body) :: l). split; reflexivity.
Qed.

Lemma define_all_inserted (ds : env) (x : string) (v : list string) (e : env) :
  ~ In x (map fst ds) ->
  forall l : env,
  match define_all ds (l ++ e), define_all ds (l ++ (x, v) :: e) with
  | Ok a, Ok b => exists l', a = (l' ++ e)%list /\ b = (l' ++ (x, v) :: e)%list
  | Err p, Err q => p = q
  | _, _ => False
  end.
Proof.
  induction ds as [| [m body] ds IH]; simpl; intros Hx l.
  - exists l. split; reflexivity.
  - assert (Hm : m <> x) by tauto.
    pose proof (define_inserted m body l x v e Hm) as Hd.
    destruct (define m body (l ++ e)) as [a |],
             (define m body (l ++ (x, v) :: e)) as [b |]; simpl;
      try contradiction; [| exact Hd].
    destruct Hd as [l' [-> ->]]. apply IH. tauto.
Qed.

Lemma collect_app (blk : string) (a b : env) :
  collect blk (a ++ b) = (collect blk a ++ collect blk b)%list.
Proof.
  induction a as [| d a IH]; simpl; [reflexivity |].
  destruct (reg_entry blk d); simpl; rewrite IH; reflexivity.
Qed.

(** A macro that is no register of the block and not its width does not
    show in the block. *)
Lemma block_of_inserted (blk : string) (l : env) (x : string)
    (v : list string) (e : env) :
  reg_entry blk (x, v) = None ->
  (blk ++ "_PARAM_REG_WIDTH")%string <> x ->
  block_of blk (l ++ (x, v) :: e) = block_of blk (l ++ e).
Proof.
  intros Hr Hw. unfold block_of, constant_value.
  rewrite (lookup_inserted l x v e _ Hw).
  rewrite !rev_app_distr. simpl rev. rewrite !collect_app.
  simpl collect at 2. rewrite Hr. rewrite app_nil_r. reflexivity.
Qed.

Lemma constant_names_not_cplusplus (m : string) :
  In m constant_names -> m <> cplusplus_name.
Proof.
  intros H E. subst m. exact (not_in_constant_names_cplusplus H).
Qed.

(** A unit that has used none of the names gets all six macros. *)
Lemma include_fresh (e : env) :
  fresh e ->
  include ECC_h e =
    Ok ((rev header_defines ++ (guard_name, []) :: e)%list,
        if defined cplusplus_name e then linkage_in e else []).
Proof.
  intros Hf. rewrite include_unguarded by (apply Hf; simpl; auto).
  unfold header_defines. simpl define_all.
  rewrite define_fresh
    by (rewrite lookup_cons_ne by reflexivity; apply Hf; simpl; tauto).
  cbn [bind].
  repeat (rewrite define_fresh
            by (rewrite !lookup_cons_ne by reflexivity; apply Hf; simpl; tauto);
          cbn [bind]).
  reflexivity.
Qed.

Lemma include_times_guarded (n : nat) (e : env) (b : list string) :
  lookup guard_name e = Some b -> include_times n ECC_h e = Ok (e, []).
Proof.
  intros Hg. induction n as [| n IH]; simpl; [reflexivity |].
  rewrite (include_guarded e b Hg). simpl. rewrite IH. reflexivity.
Qed.

End Consumers.

(** C5. When the header has been included, including it again succeeds,
    defines nothing and emits nothing; a unit that includes it twice in a
    row ends with the macros and the text of a single inclusion. *)
Theorem inclusion_idempotent (e e' : env) (out : list (list string)) :
  include ECC_h e = Ok (e', out) ->
  include ECC_h e' = Ok (e', []) /\
  include (ECC_h ++ ECC_h) e = Ok (e', out) /\
  block_of block_name e' =
    match include (ECC_h ++ ECC_h) e with
    | Ok (e2, _) => block_of block_name e2
    | Err _ => None
    end.
Proof.
  intros H.
  destruct (include_sets_guard e e' out H) as [b Hb].
  assert (H2 : include (ECC_h ++ ECC_h) e = Ok (e', out)).
  { unfold include, parse. rewrite map_app, run_app.
    fold (parse ECC_h). rewrite (include_run e e' out H).
    cbn [bind]. rewrite (run_guarded e' b out Hb). reflexivity. }
  split; [exact (include_guarded e' b Hb) |].
  split; [exact H2 |].
  rewrite H2. reflexivity.
Qed.

Lemma inclusion_idempotent_witness :
  include ECC_h (macros_after C) = Ok (macros_after C, []) /\
  include (ECC_h ++ ECC_h) c_env = Ok (macros_after C, []) /\
  block_of block_name (macros_after C) =
    match include (ECC_h ++ ECC_h) c_env with
    | Ok (e2, _) => block_of block_name e2
    | Err _ => None
    end.
Proof.
  apply (inclusion_idempotent c_env (macros_after C) []).
  vm_compute; reflexivity.
Defined.

(** C6. A C unit and the same unit compiled as C++ (with [__cplusplus]
    defined) are treated alike by the header: inclusion fails in both or in
    neither, every macro other than [__cplusplus] has the same replacement
    list in both, the five constants have the same values and the register
    block is the same.  The C unit receives no text; the C++ unit, if it
    has not made [extern] a macro, at most the empty linkage block. *)
Theorem dual_linkage (e : env) (v : list string) :
  lookup cplusplus_name e = None ->
  match include ECC_h e, include ECC_h ((cplusplus_name, v) :: e) with
  | Ok (ec, outc), Ok (ex, outx) =>
      (forall m, m <> cplusplus_name -> lookup m ex = lookup m ec) /\
      (forall m, In m constant_names ->
                 constant_value ex m = constant_value ec m) /\
      block_of block_name ex = block_of block_name ec /\
      outc = [] /\
      (lookup "extern" e = None -> outx = [] \/ outx = linkage_text)
  | Err a, Err b => a = b
  | _, _ => False
  end.
Proof.
  intros Hc.
  assert (Hagree : forall l m, m <> cplusplus_name ->
            lookup m (l ++ (cplusplus_name, v) :: e) = lookup m (l ++ e))
    by (intros; apply lookup_inserted; assumption).
  assert (Hdone : forall l outx,
    (lookup "extern" e = None -> outx = [] \/ outx = linkage_text) ->
    (forall m, m <> cplusplus_name ->
       lookup m (l ++ (cplusplus_name, v) :: e) = lookup m (l ++ e)) /\
    (forall m, In m constant_names ->
       constant_value (l ++ (cplusplus_name, v) :: e) m =
       constant_value (l ++ e) m) /\
    block_of block_name (l ++ (cplusplus_name, v) :: e) =
      block_of block_name (l ++ e) /\
    @nil (list string) = [] /\
    (lookup "extern" e = None -> outx = [] \/ outx = linkage_text)).
  { intros l outx Hout. split; [apply Hagree |].
    split.
    - intros m Hm. unfold constant_value.
      rewrite Hagree by (apply constant_names_not_cplusplus; exact Hm).
      reflexivity.
    - split; [| split; [reflexivity | exact Hout]].
      apply block_of_inserted; [reflexivity | discriminate]. }
  destruct (lookup guard_name e) as [b |] eqn:Hg.
  - rewrite (include_guarded e b Hg).
    rewrite (include_guarded ((cplusplus_name, v) :: e) b)
      by (rewrite lookup_cons_ne by reflexivity; exact Hg).
    apply (Hdone [] []). intros _. left; reflexivity.
  - rewrite (include_unguarded e Hg).
    rewrite (include_unguarded ((cplusplus_name, v) :: e))
      by (rewrite lookup_cons_ne by reflexivity; exact Hg).
    pose proof (define_all_inserted header_defines cplusplus_name v e
                  not_in_constant_names_cplusplus [(guard_name, [])]) as Hd.
    simpl app in Hd.
    destruct (define_all header_defines ((guard_name, []) :: e)) as [a |],
             (define_all header_defines
                ((guard_name, []) :: (cplusplus_name, v) :: e)) as [x |];
      cbn [bind]; try contradiction; [| exact Hd].
    destruct Hd as [l' [-> ->]].
    unfold defined. rewrite Hc, lookup_cons_eq.
    apply Hdone. intros He. right.
    apply linkage_in_plain.
    rewrite lookup_cons_ne by reflexivity. exact He.
Qed.

Lemma dual_linkage_witness :
  match include ECC_h c_env, include ECC_h cxx_env with
  | Ok (ec, outc), Ok (ex, outx) =>
      (forall m, m <> cplusplus_name -> lookup m ex = lookup m ec) /\
      (forall m, In m constant_names ->
                 constant_value ex m = constant_value ec m) /\
      block_of block_name ex = block_of block_name ec /\
      outc = [] /\
      (lookup "extern" c_env = None -> outx = [] \/ outx = linkage_text)
  | Err a, Err b => a = b
  | _, _ => False
  end.
Proof.
  apply (dual_linkage c_env ["201703L"%string]).
  reflexivity.
Defined.

(** C7. In a unit that has used none of its names the header is included
    without error, it contains no directive the preprocessor rejects, and
    each of its five constants then has an integer value: looking one up
    never fails. *)
Theorem lookup_total (e : env) :
  fresh e ->
  exists (e' : env) (out : list (list string)),
    include ECC_h e = Ok (e', out) /\
    constant_value e' WIDTH = Some 32 /\
    constant_value e' DATA_CORRECTABLE = Some 0 /\
    constant_value e' DATA_UNCORRECTABLE = Some 4 /\
    constant_value e' METADATA_CORRECTABLE = Some 8 /\
    constant_value e' METADATA_UNCORRECTABLE = Some 12 /\
    (forall m, In m constant_names -> exists z, constant_value e' m = Some z) /\
    Forall (fun l => match l with Bad _ => False | _ => True end) (parse ECC_h).
Proof.
  intros Hf. eexists. eexists.
  split; [apply (include_fresh e Hf) |].
  repeat (split; [reflexivity |]).
  split.
  - intros m Hm. simpl in Hm.
    repeat (destruct Hm as [<- | Hm]; [eexists; reflexivity |]).
    contradiction.
  - rewrite parse_ECC_h. unfold prologue, body_lines, epilogue. simpl app.
    repeat constructor.
Qed.

Lemma fresh_cxx_env : fresh cxx_env.
Proof.
  intros m Hm. simpl in Hm.
  repeat (destruct Hm as [<- | Hm]; [reflexivity |]).
  contradiction.
Defined.

Lemma lookup_total_witness :
  exists (e' : env) (out : list (list string)),
    include ECC_h cxx_env = Ok (e', out) /\
    constant_value e' WIDTH = Some 32 /\
    constant_value e' DATA_CORRECTABLE = Some 0 /\
    constant_value e' DATA_UNCORRECTABLE = Some 4 /\
    constant_value e' METADATA_CORRECTABLE = Some 8 /\
    constant_value e' METADATA_UNCORRECTABLE = Some 12 /\
    (forall m, In m constant_names -> exists z, constant_value e' m = Some z) /\
    Forall (fun l => match l with Bad _ => False | _ => True end) (parse ECC_h).
Proof.
  apply (lookup_total cxx_env).
  exact fresh_cxx_env.
Defined.


(** ** Further facts about the header *)

Section Define_all_facts.

Lemma same_tokens_refl (a : list string) : same_tokens a a = true.
Proof.
  induction a as [| x a IH]; simpl; [reflexivity |].
  rewrite String.eqb_refl. exact IH.
Qed.

Lemma lookup_app (m : string) (l e : env) :
  lookup m (l ++ e) =
    match lookup m l with
    | Some b => Some b
    | None => lookup m e
    end.
Proof.
  induction l as [| [k b] l IH]; simpl; [reflexivity |].
  destruct (k =? m)%string; [reflexivity | exact IH].
Qed.

(** Each name of a successful run of [#define]s stands for its list. *)
Lemma define_all_self (ds : env) : forall (e e' : env) m body,
  define_all ds e = Ok e' -> In (m, body) ds -> lookup m e' = Some body.
Proof.
  induction ds as [| [k b] ds IH]; simpl; intros e e' m body H Hin;
    [contradiction |].
  destruct (define k b e) as [e1 |] eqn:Hd; simpl in H; [| discriminate].
  destruct Hin as [Heq | Hin].
  - injection Heq as -> ->.
    eapply define_all_keeps; [eassumption |]. eapply define_self; eassumption.
  - eapply IH; eassumption.
Qed.

(** A run of [#define]s fails only at a name that already has another
    replacement list. *)
Lemma define_all_err (ds : env) : forall (e : env) (x : pp_error),
  NoDup (map fst ds) ->
  define_all ds e = Err x ->
  exists m body old,
    In (m, body) ds /\ x = Redefinition m /\
    lookup m e = Some old /\ old <> body.
Proof.
  induction ds as [| [k b] ds IH]; simpl; intros e x Hnd H; [discriminate |].
  inversion Hnd as [| ? ? Hk Hnd']; subst.
  unfold define in H.
  destruct (lookup k e) as [old |] eqn:Hl.
  - destruct (same_tokens old b) eqn:Hs; simpl in H.
    + destruct (IH e x Hnd' H) as [m [body [old' [Hin [Hx [Hm Hne]]]]]].
      exists m, body, old'. auto.
    + injection H as <-. exists k, b, old.
      repeat split; auto.
      intros ->. rewrite same_tokens_refl in Hs. discriminate.
  - simpl in H.
    destruct (IH _ x Hnd' H) as [m [body [old' [Hin [Hx [Hm Hne]]]]]].
    exists m, body, old'. repeat split; auto.
    rewrite lookup_cons_ne in Hm; [exact Hm |].
    apply String.eqb_neq. intros ->.
    apply Hk. apply (in_map fst) in Hin. exact Hin.
Qed.

(** It succeeds when every name is new or has the list it is given. *)
Lemma define_all_ok (ds : env) : forall e : env,
  NoDup (map fst ds) ->
  (forall m body, In (m, body) ds ->
                  lookup m e = None \/ lookup m e = Some body) ->
  exists e', define_all ds e = Ok e'.
Proof.
  induction ds as [| [k b] ds IH]; simpl; intros e Hnd Hc; [eexists; reflexivity |].
  inversion Hnd as [| ? ? Hk Hnd']; subst.
  assert (Hrest : forall e1, (forall x, x <> k -> lookup x e1 = lookup x e) ->
            exists e', define_all ds e1 = Ok e').
  { intros e1 He1. apply IH; [exact Hnd' |].
    intros m body Hin. rewrite He1; [apply Hc; right; exact Hin |].
    intros ->. apply Hk. apply (in_map fst) in Hin. exact Hin. }
  unfold define. destruct (Hc k b (or_introl eq_refl)) as [Hl | Hl]; rewrite Hl.
  - simpl. apply Hrest. intros x Hx. apply lookup_cons_ne.
    apply String.eqb_neq. auto.
  - rewrite same_tokens_refl. simpl. apply Hrest. reflexivity.
Qed.

Lemma lookup_app_agree (l e1 e2 : env) (m : string) :
  lookup m e1 = lookup m e2 -> lookup m (l ++ e1) = lookup m (l ++ e2).
Proof. intros H. rewrite !lookup_app, H. reflexivity. Qed.

(** Two units that agree on the names of the [#define]s fare alike. *)
Lemma define_all_agree (ds : env) (e1 e2 : env) :
  (forall m, In m (map fst ds) -> lookup m e1 = lookup m e2) ->
  forall l : env,
  match define_all ds (l ++ e1), define_all ds (l ++ e2) with
  | Ok a, Ok b => exists l', a = l' ++ e1 /\ b = l' ++ e2
  | Err p, Err q => p = q
  | _, _ => False
  end.
Proof.
  induction ds as [| [k b] ds IH]; simpl; intros Hag l.
  - exists l. split; reflexivity.
  - unfold define.
    rewrite (lookup_app_agree l e1 e2 k (Hag k (or_introl eq_refl))).
    destruct (lookup k (l ++ e2)) as [old |].
    + destruct (same_tokens old b); simpl; [| reflexivity].
      apply IH. intros m Hm. apply Hag. right; exact Hm.
    + simpl. apply (IH (fun m Hm => Hag m (or_intror Hm)) ((k, b) :: l)).
Qed.

Lemma header_defines_nodup : NoDup (map fst header_defines).
Proof.
  simpl. repeat constructor; simpl; intros H;
    repeat (destruct H as [H | H]; [discriminate H |]); exact H.
Qed.

Lemma header_defines_not_guard (m : string) (body : list string) :
  In (m, body) header_defines -> (guard_name =? m)%string = false.
Proof.
  simpl. intros H.
  repeat (destruct H as [H | H]; [injection H as <- <-; reflexivity |]).
  contradiction.
Qed.

End Define_all_facts.

Section Nested_run.

Lemma active_mk (e : env) (b : bool) (cs : list bool) (out : list (list string)) :
  active (mk_state e (b :: cs) out) = b && active (mk_state e cs out).
Proof. reflexivity. Qed.

(** In a group that is skipped, or with the guard defined, the header is
    passed over: macros, open groups and text stay as they are. *)
Lemma run_header_passed (e : env) (cs : list bool) (out : list (list string)) :
  active (mk_state e cs out) = false \/ defined guard_name e = true ->
  run (parse ECC_h) (mk_state e cs out) = Ok (mk_state e cs out).
Proof.
  intros H. rewrite parse_ECC_h.
  assert (Hin : forall b1 o, active (mk_state e (b1 :: negb (defined guard_name e) :: cs) o) = false).
  { intros b1 o. rewrite !active_mk.
    destruct H as [H | H].
    - unfold active in *. simpl in *. rewrite H.
      rewrite !andb_false_r. reflexivity.
    - rewrite H. simpl. apply andb_false_r. }
  assert (Hin1 : forall o, active (mk_state e (negb (defined guard_name e) :: cs) o) = false).
  { intros o. generalize (Hin true o). rewrite active_mk. simpl. auto. }
  unfold prologue, body_lines, epilogue. simpl app.
  repeat (cbn [run step bind conds macros emitted]; unfold push;
          cbn [conds macros emitted]; rewrite ?Hin1, ?Hin).
  reflexivity.
Qed.

Lemma run_prologue_live (e : env) (cs : list bool) (out : list (list string)) :
  active (mk_state e cs out) = true ->
  lookup guard_name e = None ->
  run prologue (mk_state e cs out) =
    Ok (mk_state ((guard_name, []) :: e) (true :: cs)
          (if defined cplusplus_name e
           then out ++ [expand ((guard_name, []) :: e) linkage_open] else out)).
Proof.
  intros Hact Hg.
  assert (Hd : defined guard_name e = false)
    by (unfold defined; rewrite Hg; reflexivity).
  assert (Ha : forall e0 o, active (mk_state e0 cs o) = true)
    by (intros; exact Hact).
  assert (H1 : forall e0 o, active (mk_state e0 (true :: cs) o) = true)
    by (intros; rewrite active_mk, Ha; reflexivity).
  assert (H2 : forall b e0 o, active (mk_state e0 (b :: true :: cs) o) = b)
    by (intros; rewrite active_mk, H1; apply andb_true_r).
  unfold prologue.
  cbn [run step bind conds macros emitted]. unfold push.
  cbn [conds macros emitted]. rewrite Hd. cbn [negb]. rewrite H1.
  rewrite (define_fresh _ _ _ Hg). cbn [bind conds macros emitted].
  rewrite defined_cons_ne by reflexivity. rewrite H2.
  destruct (defined cplusplus_name e); reflexivity.
Qed.

Lemma run_epilogue_live (e : env) (cs : list bool) (out : list (list string)) :
  active (mk_state e cs out) = true ->
  run epilogue (mk_state e (true :: cs) out) =
    Ok (mk_state e cs
          (if defined cplusplus_name e then out ++ [linkage_close] else out)).
Proof.
  intros Hact.
  assert (Ha : forall e0 o, active (mk_state e0 cs o) = true)
    by (intros; exact Hact).
  assert (H2 : forall b e0 o, active (mk_state e0 (b :: true :: cs) o) = b)
    by (intros; rewrite !active_mk, Ha; destruct b; reflexivity).
  transitivity
    (Ok (mk_state e cs
           (if defined cplusplus_name e
            then out ++ [expand e linkage_close] else out))).
  - unfold epilogue.
    cbn [run step bind conds macros emitted]. unfold push.
    cbn [conds macros emitted]. rewrite H2.
    destruct (defined cplusplus_name e); reflexivity.
  - rewrite expand_close. reflexivity.
Qed.

(** In a live group without the guard, the guard and the constants are
    defined, and the text goes out after what was there. *)
Lemma run_header_live (e : env) (cs : list bool) (out : list (list string)) :
  active (mk_state e cs out) = true ->
  lookup guard_name e = None ->
  run (parse ECC_h) (mk_state e cs out) =
    (e' <- define_all header_defines ((guard_name, []) :: e) ;;
     Ok (mk_state e' cs
           (if defined cplusplus_name e then out ++ linkage_in e else out))).
Proof.
  intros Hact Hg. rewrite parse_ECC_h, run_app.
  rewrite (run_prologue_live e cs out Hact Hg).
  change (st' <- Ok ?s ;; run ?ls st') with (run ls s).
  rewrite run_app, run_defines;
    [| reflexivity | rewrite active_mk; exact Hact].
  change (defs_of body_lines) with header_defines.
  cbn [macros conds emitted].
  destruct (define_all header_defines ((guard_name, []) :: e)) as [e1 |] eqn:Hd;
    [| reflexivity].
  cbn [bind]. rewrite run_epilogue_live by exact Hact.
  assert (Hc : defined cplusplus_name e1 = defined cplusplus_name e).
  { unfold defined.
    rewrite (define_all_other _ _ _ _ Hd not_in_constant_names_cplusplus).
    rewrite lookup_cons_ne by reflexivity. reflexivity. }
  rewrite Hc. destruct (defined cplusplus_name e); [| reflexivity].
  unfold linkage_in. rewrite <- app_assoc. reflexivity.
Qed.

End Nested_run.

(** ** The values after inclusion, nesting and layout *)

(** X3. After a successful inclusion that found the guard undefined, the
    guard is defined with an empty replacement list and so stands for no
    number, and each constant stands for the header's list, whatever the
    unit had defined before: the width is 32 and the offsets 0, 4, 8, 12. *)
Theorem include_values (e e' : env) (out : list (list string)) :
  lookup guard_name e = None ->
  include ECC_h e = Ok (e', out) ->
  lookup guard_name e' = Some [] /\
  constant_value e' guard_name = None /\
  (forall m body, In (m, body) header_defines -> lookup m e' = Some body) /\
  map (constant_value e') constant_names =
    [Some 32; Some 0; Some 4; Some 8; Some 12].
Proof.
  intros Hg H. rewrite (include_unguarded e Hg) in H.
  destruct (define_all header_defines ((guard_name, []) :: e)) as [e1 |] eqn:Hd;
    simpl in H; [| discriminate].
  injection H as <- <-.
  assert (Hguard : lookup guard_name e1 = Some []).
  { eapply define_all_keeps; [eassumption | apply lookup_cons_eq]. }
  assert (Hall : forall m body, In (m, body) header_defines ->
                                lookup m e1 = Some body).
  { intros m body Hin. eapply define_all_self; eassumption. }
  split; [exact Hguard |].
  split; [unfold constant_value; rewrite Hguard; reflexivity |].
  split; [exact Hall |].
  unfold constant_names, header_defines, constant_value. simpl map.
  rewrite (Hall WIDTH _ (or_introl eq_refl)).
  rewrite (Hall DATA_CORRECTABLE _ (or_intror (or_introl eq_refl))).
  rewrite (Hall DATA_UNCORRECTABLE _ (or_intror (or_intror (or_introl eq_refl)))).
  rewrite (Hall METADATA_CORRECTABLE _
             (or_intror (or_intror (or_intror (or_introl eq_refl))))).
  rewrite (Hall METADATA_UNCORRECTABLE _
             (or_intror (or_intror (or_intror (or_intror (or_introl eq_refl)))))).
  reflexivity.
Qed.

Lemma include_values_witness :
  lookup guard_name (macros_after Cxx) = Some [] /\
  constant_value (macros_after Cxx) guard_name = None /\
  (forall m body, In (m, body) header_defines ->
                  lookup m (macros_after Cxx) = Some body) /\
  map (constant_value (macros_after Cxx)) constant_names =
    [Some 32; Some 0; Some 4; Some 8; Some 12].
Proof.
  apply (include_values cxx_env (macros_after Cxx) linkage_text).
  - reflexivity.
  - vm_compute; reflexivity.
Defined.

(** X5. Wherever the header is met, it closes every conditional group it
    opens: a run that succeeds leaves the open groups of the unit as they
    were.  Inside a skipped group, or with the guard defined, it changes
    nothing at all.  A run can only fail in a live group, and then with the
    redefinition of one of the five constants; it never meets a stray
    [#endif] or a directive it does not know. *)
Theorem header_nests (st : pp_state) :
  match run (parse ECC_h) st with
  | Ok st' =>
      conds st' = conds st /\
      (active st = false \/ defined guard_name (macros st) = true -> st' = st)
  | Err x =>
      active st = true /\ defined guard_name (macros st) = false /\
      exists m, In m constant_names /\ x = Redefinition m
  end.
Proof.
  destruct st as [e cs out]. cbn [conds macros].
  destruct (active (mk_state e cs out)) eqn:Hact.
  - unfold defined at 1 2.
    destruct (lookup guard_name e) as [b |] eqn:Hg.
    + rewrite run_header_passed
        by (right; unfold defined; rewrite Hg; reflexivity).
      split; [reflexivity | intros _; reflexivity].
    + rewrite (run_header_live e cs out Hact Hg).
      destruct (define_all header_defines ((guard_name, []) :: e)) as [e1 | x] eqn:Hd;
        cbn [bind conds].
      * split; [reflexivity |]. intros [H | H]; discriminate.
      * split; [reflexivity |]. split; [reflexivity |].
        destruct (define_all_err _ _ _ header_defines_nodup Hd)
          as [m [body [old [Hin [Hx _]]]]].
        exists m. split; [| exact Hx].
        apply (in_map fst) in Hin. exact Hin.
  - rewrite run_header_passed by (left; exact Hact).
    split; [reflexivity | intros _; reflexivity].
Qed.

(** X6. The four registers tile the block: every byte offset from 0 up to
    the number of registers times the register size (16) lies in exactly
    one register, and no byte outside that range lies in any. *)
Theorem registers_tile (l : language) (b : reg_block) (a : Z) :
  HCI_ECC_MANAGER l = Some b ->
  stride b * Z.of_nat (List.length (registers b)) = 16 /\
  (0 <= a < stride b * Z.of_nat (List.length (registers b)) ->
   exists r, owners b a = [r]) /\
  (a < 0 \/ stride b * Z.of_nat (List.length (registers b)) <= a ->
   owners b a = []).
Proof.
  intros Hb. apply block_inv in Hb. subst b.
  change (stride expected_block * Z.of_nat (List.length (registers expected_block)))
    with 16.
  split; [reflexivity |].
  unfold owners. change (stride expected_block) with 4.
  cbn [registers expected_block filter map snd fst].
  split; intros Ha.
  - destruct (Z.leb_spec 0 a), (Z.ltb_spec a (0 + 4)),
             (Z.leb_spec 4 a), (Z.ltb_spec a (4 + 4)),
             (Z.leb_spec 8 a), (Z.ltb_spec a (8 + 4)),
             (Z.leb_spec 12 a), (Z.ltb_spec a (12 + 4));
      try lia; cbn; eexists; reflexivity.
  - destruct (Z.leb_spec 0 a), (Z.ltb_spec a (0 + 4)),
             (Z.leb_spec 4 a), (Z.ltb_spec a (4 + 4)),
             (Z.leb_spec 8 a), (Z.ltb_spec a (8 + 4)),
             (Z.leb_spec 12 a), (Z.ltb_spec a (12 + 4));
      try lia; reflexivity.
Qed.

Lemma registers_tile_witness : exists r, owners expected_block 9 = [r].
Proof.
  refine (proj1 (proj2 (registers_tile C expected_block 9 _)) _).
  - vm_compute; reflexivity.
  - change (0 <= 9 < 16). lia.
Defined.


(** ** What inclusion changes and what it leaves alone *)

Lemma compatible_cxx_env : compatible cxx_env.
Proof.
  intros m body H. left. simpl in H.
  repeat (destruct H as [H | H]; [injection H as <- <-; reflexivity |]).
  contradiction.
Defined.

(** In a unit without conflicting definitions the inclusion succeeds. *)
Lemma include_compatible (e : env) :
  defined guard_name e = true \/ compatible e ->
  exists e' out, include ECC_h e = Ok (e', out).
Proof.
  unfold defined. destruct (lookup guard_name e) as [b |] eqn:Hg.
  - intros _. exists e, []. apply (include_guarded e b Hg).
  - intros [Habs | Hc]; [discriminate |].
    rewrite (include_unguarded e Hg).
    destruct (define_all_ok header_defines ((guard_name, []) :: e)
                header_defines_nodup) as [e1 He1].
    { intros m body Hin.
      rewrite lookup_cons_ne by (eapply header_defines_not_guard; eassumption).
      apply Hc, Hin. }
    rewrite He1. simpl. eexists. eexists. reflexivity.
Qed.

(** Where the guard was not defined, all six names are defined afterwards. *)
Lemma include_defines_all (e e' : env) (out : list (list string)) :
  lookup guard_name e = None ->
  include ECC_h e = Ok (e', out) ->
  forall m, In m header_names -> defined m e' = true.
Proof.
  intros Hg H. rewrite (include_unguarded e Hg) in H.
  destruct (define_all header_defines ((guard_name, []) :: e)) as [e1 |] eqn:Hd;
    simpl in H; [| discriminate].
  injection H as <- <-.
  intros m [<- | Hm]; unfold defined.
  - rewrite (define_all_keeps _ _ _ guard_name [] Hd (lookup_cons_eq _ _ _)).
    reflexivity.
  - change (In m (map fst header_defines)) in Hm.
    apply in_map_iff in Hm. destruct Hm as [[k body] [<- Hin]].
    cbn [fst]. rewrite (define_all_self _ _ _ _ _ Hd Hin). reflexivity.
Qed.

(** C8, refuted as stated: including the header does change the state of
    the preprocessor.  A plain C unit has no macro named
    HCI_ECC_MANAGER_PARAM_REG_WIDTH before the inclusion and has it, with
    the list 32, after. *)
Lemma inclusion_changes_macros :
  ~ (forall (e' : env) (out : list (list string)),
       include ECC_h c_env = Ok (e', out) ->
       forall m, lookup m e' = lookup m c_env).
Proof.
  intros H.
  specialize (H (macros_after C) [] eq_refl WIDTH).
  vm_compute in H. discriminate H.
Qed.

(** C8, amended.  Inclusion changes the macros of the unit and nothing
    else, and the macros only by adding names of its own.  In a unit that
    has the guard defined, or whose own definitions of the five constants,
    where it has any, carry the header's replacement lists, the inclusion
    succeeds; every macro defined before keeps its replacement list; no name
    but the six of the header is touched, and where the guard was not
    defined all six are defined afterwards; a C unit is handed no text, and
    a C++ unit that has not made [extern] a macro only the empty linkage
    block, so nothing is left to happen at run time; however often the
    header is included again, the macros stay as they are and no text is
    emitted. *)
Theorem inclusion_frame (e : env) :
  defined guard_name e = true \/ compatible e ->
  exists (e' : env) (out : list (list string)),
    include ECC_h e = Ok (e', out) /\
    (forall m body, lookup m e = Some body -> lookup m e' = Some body) /\
    (forall m, ~ In m header_names -> lookup m e' = lookup m e) /\
    (defined guard_name e = false ->
     forall m, In m header_names -> defined m e' = true) /\
    (defined cplusplus_name e = false -> out = []) /\
    (lookup "extern" e = None -> out = [] \/ out = linkage_text) /\
    (forall n : nat, include_times n ECC_h e' = Ok (e', [])).
Proof.
  intros Hok. destruct (include_compatible e Hok) as [e' [out H]].
  exists e', out. pose proof (include_run e e' out H) as Hr.
  split; [exact H |].
  split; [| split; [| split; [| split; [| split]]]].
  - intros m body Hm.
    apply (run_keeps _ _ _ m body Hr). exact Hm.
  - intros m Hm.
    apply (run_frame _ _ _ m Hr).
    rewrite parse_ECC_h. exact Hm.
  - unfold defined. destruct (lookup guard_name e) eqn:Hg; [discriminate |].
    intros _. exact (include_defines_all e e' out Hg H).
  - intros Hc. rewrite (include_emits e e' out H), Hc.
    destruct (defined guard_name e); reflexivity.
  - intros He. rewrite (include_emits e e' out H).
    destruct (defined guard_name e); [left; reflexivity |].
    destruct (defined cplusplus_name e); [right | left; reflexivity].
    apply linkage_in_plain, He.
  - intros n. destruct (include_sets_guard e e' out H) as [b Hb].
    apply (include_times_guarded n e' b Hb).
Qed.

Lemma inclusion_frame_witness :
  exists (e' : env) (out : list (list string)),
    include ECC_h cxx_env = Ok (e', out) /\
    (forall m body, lookup m cxx_env = Some body -> lookup m e' = Some body) /\
    (forall m, ~ In m header_names -> lookup m e' = lookup m cxx_env) /\
    (defined guard_name cxx_env = false ->
     forall m, In m header_names -> defined m e' = true) /\
    (defined cplusplus_name cxx_env = false -> out = []) /\
    (lookup "extern" cxx_env = None -> out = [] \/ out = linkage_text) /\
    (forall n : nat, include_times n ECC_h e' = Ok (e', [])).
Proof.
  apply (inclusion_frame cxx_env).
  right. exact compatible_cxx_env.
Defined.

(** X4. What the header does to the macros of a unit depends on nothing
    but whether the guard is defined and what the five constants stand
    for, and the text it emits on nothing more than whether [__cplusplus]
    is defined and what [extern] stands for.  Two units that agree on the
    guard, on [__cplusplus] and on the five constants are rejected with the
    same error or both accepted, and then the same definitions are put in
    front of the macros of each; they are handed the same text if they are
    C units or if [extern] is a macro in neither. *)
Theorem include_reads_only (e1 e2 : env) :
  defined guard_name e1 = defined guard_name e2 ->
  defined cplusplus_name e1 = defined cplusplus_name e2 ->
  (forall m, In m constant_names -> lookup m e1 = lookup m e2) ->
  match include ECC_h e1, include ECC_h e2 with
  | Ok (a, o1), Ok (b, o2) =>
      (exists l, a = l ++ e1 /\ b = l ++ e2) /\
      (defined cplusplus_name e1 = false \/
       (lookup "extern" e1 = None /\ lookup "extern" e2 = None) ->
       o1 = o2)
  | Err p, Err q => p = q
  | _, _ => False
  end.
Proof.
  intros Hguard Hcpp Hag. unfold defined in Hguard.
  destruct (lookup guard_name e1) as [b1 |] eqn:Hg1,
           (lookup guard_name e2) as [b2 |] eqn:Hg2; try discriminate.
  - rewrite (include_guarded e1 b1 Hg1), (include_guarded e2 b2 Hg2).
    split; [| intros _; reflexivity]. exists []. split; reflexivity.
  - rewrite (include_unguarded e1 Hg1), (include_unguarded e2 Hg2).
    pose proof (define_all_agree header_defines e1 e2 Hag [(guard_name, [])])
      as Hd.
    simpl app in Hd.
    destruct (define_all header_defines ((guard_name, []) :: e1)) as [a |],
             (define_all header_defines ((guard_name, []) :: e2)) as [b |];
      cbn [bind]; try contradiction; [| exact Hd].
    split; [exact Hd |].
    rewrite <- Hcpp. intros [Hc | [He1 He2]].
    + rewrite Hc. reflexivity.
    + rewrite (linkage_in_plain e1 He1), (linkage_in_plain e2 He2).
      reflexivity.
Qed.

Lemma include_reads_only_witness :
  match include ECC_h cxx_env,
        include ECC_h [("NDEBUG"%string, []); (cplusplus_name, ["199711L"%string])] with
  | Ok (a, o1), Ok (b, o2) =>
      (exists l, a = l ++ cxx_env /\
                 b = l ++ [("NDEBUG"%string, []); (cplusplus_name, ["199711L"%string])]) /\
      (defined cplusplus_name cxx_env = false \/
       (lookup "extern" cxx_env = None /\
        lookup "extern" [("NDEBUG"%string, []); (cplusplus_name, ["199711L"%string])] = None) ->
       o1 = o2)
  | Err p, Err q => p = q
  | _, _ => False
  end.
Proof.
  apply (include_reads_only cxx_env
           [("NDEBUG"%string, []); (cplusplus_name, ["199711L"%string])]).
  - reflexivity.
  - reflexivity.
  - intros m Hm. simpl in Hm.
    repeat (destruct Hm as [<- | Hm]; [reflexivity |]).
    contradiction.
Defined.

(** X7. A [#define] of a name that is none of the header's six can stand
    before the inclusion or after it.  Either both orders are rejected, or
    both are accepted and every macro ends with the same replacement list;
    the text handed to the compiler is the same as well when the name is
    neither [__cplusplus] nor [extern] and [extern] is no macro of the
    unit. *)
Theorem include_commutes_define (e : env) (x : string) (v : list string) :
  ~ In x header_names ->
  match (ex <- define x v e ;; include ECC_h ex),
        (r <- include ECC_h e ;;
         a' <- define x v (fst r) ;; Ok (a', snd r)) with
  | Ok (b, o1), Ok (a', o2) =>
      (forall m, lookup m b = lookup m a') /\
      (x <> cplusplus_name -> x <> "extern"%string ->
       lookup "extern" e = None -> o1 = o2)
  | Err _, Err _ => True
  | _, _ => False
  end.
Proof.
  intros Hx.
  assert (Hgd : (x =? guard_name)%string = false)
    by (apply String.eqb_neq; intros ->; apply Hx; left; reflexivity).
  assert (Hnames : ~ In x (map fst header_defines))
    by (intros Hin; apply Hx; right; exact Hin).
  assert (Hframe : forall a out, include ECC_h e = Ok (a, out) ->
                                 lookup x a = lookup x e).
  { intros a out H.
    apply (run_frame _ _ _ x (include_run e a out H)).
    rewrite parse_ECC_h. exact Hx. }
  unfold define at 1. destruct (lookup x e) as [old |] eqn:Hl.
  - destruct (same_tokens old v) eqn:Hs; cbn [bind];
      destruct (include ECC_h e) as [[a out] |] eqn:Hi; cbn [bind fst snd];
      try exact I;
      unfold define; rewrite (Hframe a out eq_refl), Hs; cbn [bind];
      [| exact I].
    split; [reflexivity | intros _ _ _; reflexivity].
  - cbn [bind].
    destruct (lookup guard_name e) as [b0 |] eqn:Hg.
    + rewrite (include_guarded ((x, v) :: e) b0)
        by (rewrite lookup_cons_ne by exact Hgd; exact Hg).
      rewrite (include_guarded e b0 Hg). cbn [bind fst snd].
      rewrite (define_fresh x v e Hl). cbn [bind].
      split; [reflexivity | intros _ _ _; reflexivity].
    + pose proof (include_unguarded e Hg) as Hi.
      rewrite (include_unguarded ((x, v) :: e))
        by (rewrite lookup_cons_ne by exact Hgd; exact Hg).
      pose proof (define_all_inserted header_defines x v e Hnames
                    [(guard_name, [])]) as Hd.
      simpl app in Hd.
      destruct (define_all header_defines ((guard_name, []) :: e)) as [a1 |];
        destruct (define_all header_defines ((guard_name, []) :: (x, v) :: e))
          as [b |]; try contradiction; cbn [bind] in Hi; rewrite Hi;
        cbn [bind fst snd]; [| exact I].
      destruct Hd as [l' [-> ->]].
      pose proof (Hframe _ _ Hi) as Ha. rewrite ?Hl in Ha.
      rewrite (define_fresh x v _ Ha). cbn [bind].
      split.
      * intros m. destruct (x =? m)%string eqn:E.
        -- apply String.eqb_eq in E. subst m.
           rewrite lookup_cons_eq. rewrite lookup_app in Ha |- *.
           destruct (lookup x l'); [discriminate |].
           apply lookup_cons_eq.
        -- rewrite lookup_cons_ne by exact E.
           apply lookup_inserted. apply String.eqb_neq.
           rewrite String.eqb_sym. exact E.
      * intros Hc Hext He.
        rewrite (defined_cons_ne x cplusplus_name v e)
          by (apply String.eqb_neq; exact Hc).
        destruct (defined cplusplus_name e); [| reflexivity].
        rewrite (linkage_in_plain e He).
        apply linkage_in_plain.
        rewrite lookup_cons_ne by (apply String.eqb_neq; exact Hext).
        exact He.
Qed.

Lemma include_commutes_define_witness :
  match (ex <- define "NDEBUG" [] cxx_env ;; include ECC_h ex),
        (r <- include ECC_h cxx_env ;;
         a' <- define "NDEBUG" [] (fst r) ;; Ok (a', snd r)) with
  | Ok (b, o1), Ok (a', o2) =>
      (forall m, lookup m b = lookup m a') /\
      ("NDEBUG"%string <> cplusplus_name -> "NDEBUG"%string <> "extern"%string ->
       lookup "extern" cxx_env = None -> o1 = o2)
  | Err _, Err _ => True
  | _, _ => False
  end.
Proof.
  apply (include_commutes_define cxx_env "NDEBUG" []).
  simpl. intros H.
  repeat (destruct H as [H | H]; [discriminate H |]). exact H.
Defined.
